(** * Verification of [text_data.py]

    A shallow embedding of [_reverse_memo] and [transform_text_data]
    (src/text_data.py) together with the properties stated about them.

    Modelling conventions.
    - Python [str] is [string]; the character classes of the cleaning
      regular expression are given on the ASCII range.
    - A Python [dict] is an insertion-ordered association list with unique
      keys ([Dict.t]); iteration follows insertion order, as in Python.
    - The stop-word list, the Porter stemmer and the vectorizer are external
      collaborators: they are the fields of the class [Collaborators].
    - Exceptions are the [Raise] outcome of a small state-and-error monad;
      the state holds the memo, the stemmer object and a trace of every
      memo access and stemmer call. *)

From Stdlib Require Import List String Ascii Bool Arith Lia QArith.
Import ListNotations.
Open Scope string_scope.
Open Scope list_scope.
Open Scope nat_scope.

(* ===================================================================== *)
(** ** Python dictionaries                                                *)
(* ===================================================================== *)

Module Dict.

Definition t (V : Type) : Type := list (string * V).

Definition keys {V} (d : t V) : list string := map fst d.
Definition values {V} (d : t V) : list V := map snd d.

(** [d[k]], [None] standing for [KeyError]. *)
Fixpoint get {V} (k : string) (d : t V) : option V :=
  match d with
  | [] => None
  | (k', v) :: d' => if String.eqb k k' then Some v else get k d'
  end.

(** [k in d] *)
Definition contains {V} (k : string) (d : t V) : bool :=
  match get k d with Some _ => true | None => false end.

(** [d[k] = v]: an existing key keeps its position, a new key goes last. *)
Fixpoint set {V} (k : string) (v : V) (d : t V) : t V :=
  match d with
  | [] => [(k, v)]
  | (k', v') :: d' =>
      if String.eqb k k' then (k', v) :: d' else (k', v') :: set k v d'
  end.

(** The invariant of a dictionary: no key occurs twice. *)
Definition wf {V} (d : t V) : Prop := NoDup (keys d).

End Dict.

(* ===================================================================== *)
(** ** [_reverse_memo]                                                    *)
(* ===================================================================== *)

(** The body of the [for key, item in memo.items()] loop. *)
Definition reverse_step (output : Dict.t (list string)) (kv : string * string)
  : Dict.t (list string) :=
  let (key, item) := kv in
  match Dict.get item output with
  | Some l => Dict.set item (l ++ [key]) output   (* output[item].append(key) *)
  | None => Dict.set item [key] output            (* output[item] = [key] *)
  end.

Definition reverse_loop (items : list (string * string))
  (output : Dict.t (list string)) : Dict.t (list string) :=
  fold_left reverse_step items output.

Definition _reverse_memo (memo : Dict.t string) : Dict.t (list string) :=
  reverse_loop memo [].

(** [sum(len(v) for v in d.values())] *)
Definition total_len (d : Dict.t (list string)) : nat :=
  fold_right (fun v acc => List.length v + acc) 0 (Dict.values d).

(** The raw tokens of [items] whose stem is [s], in iteration order. *)
Definition tokens_of_stem (s : string) (items : list (string * string))
  : list string :=
  map fst (filter (fun kv => String.eqb (snd kv) s) items).


(* ===================================================================== *)
(** ** Tokenizer/cleaner (lines 58-62)                                    *)
(* ===================================================================== *)

Definition code_in (lo hi : nat) (c : ascii) : bool :=
  (lo <=? nat_of_ascii c) && (nat_of_ascii c <=? hi).

(** [\s]: tab, line feed, vertical tab, form feed, carriage return, space *)
Definition is_space (c : ascii) : bool :=
  code_in 9 13 c || Nat.eqb (nat_of_ascii c) 32.

(** [\d] *)
Definition is_digit (c : ascii) : bool := code_in 48 57 c.

(** [\w]: letters, digits and the underscore *)
Definition is_word (c : ascii) : bool :=
  code_in 65 90 c || code_in 97 122 c || is_digit c
  || Nat.eqb (nat_of_ascii c) 95.

(** A character survives [replace_all('[^\s\w\d%]', '')] when it is in one
    of the classes the negated set lists.  The classes are those of ASCII
    text; letters and spaces beyond ASCII are outside this model. *)
Definition kept (c : ascii) : bool :=
  is_space c || is_word c || is_digit c || Ascii.eqb c "%".

Fixpoint replace_all (s : string) : string :=
  match s with
  | EmptyString => EmptyString
  | String c s' => if kept c then String c (replace_all s') else replace_all s'
  end.

Definition lower_char (c : ascii) : ascii :=
  if code_in 65 90 c then ascii_of_nat (nat_of_ascii c + 32) else c.

Fixpoint to_lowercase (s : string) : string :=
  match s with
  | EmptyString => EmptyString
  | String c s' => String (lower_char c) (to_lowercase s')
  end.

(** [str.split(by=" ")]: every single space separates two tokens, so a
    string with k spaces gives k+1 tokens, some of them possibly empty. *)
Fixpoint split (s : string) : list string :=
  match s with
  | EmptyString => [EmptyString]
  | String c s' =>
      if Ascii.eqb c " " then EmptyString :: split s'
      else match split s' with
           | [] => [String c EmptyString]
           | tok :: toks => String c tok :: toks
           end
  end.

Definition clean (s : string) : string := to_lowercase (replace_all s).

(** One cell of a text column; a null cell stays null. *)
Definition tokenize (cell : option string) : option (list string) :=
  option_map (fun s => split (clean s)) cell.

(* ===================================================================== *)
(** ** Tables                                                             *)
(* ===================================================================== *)

(** The input frame: named columns of string cells, [None] for a missing
    value. *)
Definition frame : Type := list (string * list (option string)).



Fixpoint nodupb (l : list string) : bool :=
  match l with
  | [] => true
  | x :: l' => negb (existsb (String.eqb x) l') && nodupb l'
  end.

Definition mem (x : string) (l : list string) : bool :=
  existsb (String.eqb x) l.

(** Insertion sort, for the sorted category levels of [get_dummies]. *)
Fixpoint insert_sorted (x : string) (l : list string) : list string :=
  match l with
  | [] => [x]
  | y :: l' => if String.leb x y then x :: l else y :: insert_sorted x l'
  end.

Fixpoint dedup (l : list string) : list string :=
  match l with
  | [] => []
  | x :: l' => if mem x l' then dedup l' else x :: dedup l'
  end.

Fixpoint non_null (cells : list (option string)) : list string :=
  match cells with
  | [] => []
  | Some v :: cells' => v :: non_null cells'
  | None :: cells' => non_null cells'
  end.

(** The categories of a column: its distinct non-missing values, sorted. *)
Definition levels (cells : list (option string)) : list string :=
  fold_right insert_sorted [] (dedup (non_null cells)).

Definition is_level (l : string) (cell : option string) : bool :=
  match cell with
  | Some v => String.eqb v l
  | None => false
  end.

(* ===================================================================== *)
(** ** External collaborators                                             *)
(* ===================================================================== *)

(** Which scikit-learn class line 69 or line 71 instantiates. *)
Inductive scoring : Type := TfidfVectorizer | CountVectorizer.

(** The constructor arguments of the vectorizer; scikit-learn constructors
    only store them. *)
Record params : Type := {
  kind : scoring;
  max_df : Q;
  min_df : Q;
  stop_words : list string
}.

(** What the module imports from nltk and scikit-learn.  The dense feature
    matrix [X.toarray()] is given by its columns, one per vocabulary term;
    [fit_transform] returning [None] stands for any exception it raises.
    [fit_transform] receives the attributes learned by an earlier fit of the
    same object, since the source calls it on one object repeatedly. *)
Class Collaborators : Type := {
  stop : list string;
  stemmer : Type;
  PorterStemmer : stemmer;
  stem : stemmer -> string -> string * stemmer;
  score : Type;
  fitted : Type;
  unfitted : fitted;
  fit_transform :
    params -> fitted -> list string -> option (list (list score) * fitted);
  get_feature_names_out : fitted -> list string
}.

Section Pipeline.
Context {ext : Collaborators}.

Inductive column : Type :=
| Utf8 (cells : list (option string))
| Dummy (cells : list bool)
| Tokens (cells : list (option (list string)))
| Feature (cells : list score).

Definition table : Type := Dict.t column.



Inductive error : Type :=
| KeyError | ColumnNotFoundError | SchemaError | DuplicateError | ValueError.

(** *** [pd.get_dummies(df, columns=..., drop_first=..., prefix_sep="::")] *)

Definition one_hot_name (c l : string) : string := c ++ "::" ++ l.

Definition dummies (c : string) (cells : list (option string))
  (drop_first : bool) : table :=
  map (fun l => (one_hot_name c l, Dummy (map (is_level l) cells)))
      (if drop_first then tl (levels cells) else levels cells).

Fixpoint encode (df : frame) (columns : list string) (drop_first : bool)
  : option table :=
  match columns with
  | [] => Some []
  | c :: cs =>
      match Dict.get c df, encode df cs drop_first with
      | Some cells, Some rest => Some (dummies c cells drop_first ++ rest)
      | _, _ => None
      end
  end.

(** The columns that are not encoded come first, in their original order,
    then the indicator columns of each encoded column. *)
Definition get_dummies (df : frame) (columns : list string)
  (drop_first : bool) : error + table :=
  match encode df columns drop_first with
  | None => inl KeyError
  | Some ds =>
      inr (map (fun nc => (fst nc, Utf8 (snd nc)))
               (filter (fun nc => negb (mem (fst nc) columns)) df) ++ ds)
  end.

(** [pl.from_pandas]: a polars frame cannot hold two columns of one name. *)
Definition from_pandas (t : table) : error + table :=
  if nodupb (Dict.keys t) then inr t else inl DuplicateError.

(** *** [.with_columns([pl.col(t).str ... .str.split(by=" ") for t in ...])] *)

Fixpoint replace_columns (df2 : table) (text_cols : list string)
  : error + table :=
  match text_cols with
  | [] => inr df2
  | t :: ts =>
      match Dict.get t df2 with
      | None => inl ColumnNotFoundError
      | Some (Utf8 cells) =>
          replace_columns (Dict.set t (Tokens (map tokenize cells)) df2) ts
      | Some _ => inl SchemaError
      end
  end.

Definition with_columns (df2 : table) (text_cols : list string)
  : error + table :=
  if nodupb text_cols then replace_columns df2 text_cols
  else inl DuplicateError.

(** *** The stemming state and its monad *)

Inductive event : Type :=
| MemoContains (w : string)       (* the test [w not in memo] *)
| StemCall (w : string)           (* [ps.stem(w)] *)
| MemoSet (w s : string)          (* [memo[w] = s] *)
| MemoGet (w s : string).         (* [memo[w]], read as [s] *)

Record state : Type := {
  memo : Dict.t string;
  ps : stemmer;
  trace : list event
}.

Inductive outcome (A : Type) : Type :=
| Ok (a : A) (st : state)
| Raise (e : error) (st : state).
Arguments Ok {A} a st.
Arguments Raise {A} e st.

Definition M (A : Type) : Type := state -> outcome A.

Definition ret {A} (a : A) : M A := fun st => Ok a st.

Definition bind {A B} (m : M A) (k : A -> M B) : M B :=
  fun st =>
    match m st with
    | Ok a st' => k a st'
    | Raise e st' => Raise e st'
    end.

Definition lift {A} (r : error + A) : M A :=
  fun st =>
    match r with
    | inl e => Raise e st
    | inr a => Ok a st
    end.

Definition final_state {A} (o : outcome A) : state :=
  match o with
  | Ok _ st => st
  | Raise _ st => st
  end.

Notation "x <- m ;; k" := (bind m (fun x => k))
  (at level 61, m at next level, right associativity).
Notation "' pat <- m ;; k" := (bind m (fun x => match x with pat => k end))
  (at level 61, pat pattern, m at next level, right associativity).

(** *** The stemming loop (lines 77-87) *)

(** Lines 81-83 for one token [w]. *)
Definition stem_word (w : string) : M string :=
  fun st =>
    let st1 :=
      if Dict.contains w (memo st)
      then {| memo := memo st; ps := ps st;
              trace := trace st ++ [MemoContains w] |}
      else
        let (s, ps') := stem (ps st) w in
        {| memo := Dict.set w s (memo st); ps := ps';
           trace := trace st ++ [MemoContains w; StemCall w; MemoSet w s] |}
    in
    match Dict.get w (memo st1) with
    | Some s =>
        Ok s {| memo := memo st1; ps := ps st1;
                trace := trace st1 ++ [MemoGet w s] |}
    | None => Raise KeyError st1
    end.

(** The loop [for w in tokens], appending to [new_tokens]. *)
Fixpoint stem_tokens (tokens new_tokens : list string) : M (list string) :=
  match tokens with
  | [] => ret new_tokens
  | w :: rest =>
      s <- stem_word w ;;
      stem_tokens rest (new_tokens ++ [s])
  end.

(** Lines 78-87 for one row.  [if tokens:] is Python truthiness: both
    [None] and the empty list take the [else] branch. *)
Definition normalize_row (tokens : option (list string)) : M string :=
  match tokens with
  | Some (w :: rest) =>
      new_tokens <- stem_tokens (w :: rest) [] ;;
      ret (String.concat " " new_tokens)
  | Some [] => ret "Unknown"
  | None => ret "Unknown"
  end.

(** The loop [for tokens in text_column], appending to [new_list]. *)
Fixpoint normalize_column (text_column : list (option (list string)))
  (new_list : list string) : M (list string) :=
  match text_column with
  | [] => ret new_list
  | tokens :: rest =>
      doc <- normalize_row tokens ;;
      normalize_column rest (new_list ++ [doc])
  end.

(** *** Vectorizing and assembling (lines 65-97) *)

(** Lines 68-71. *)
Definition make_vectorizer (vectorize_method : string) (max_df min_df : Q)
  : params :=
  if String.eqb vectorize_method "tfidf"
  then {| kind := TfidfVectorizer; max_df := max_df; min_df := min_df;
          stop_words := stop |}
  else {| kind := CountVectorizer; max_df := max_df; min_df := min_df;
          stop_words := stop |}.

Definition text_feature_name (c x : string) : string := c ++ "::word::" ++ x.

(** [.to_list()] of a text column.  The loop only meets columns that
    [with_columns] has turned into token lists. *)
Definition to_list (c : column) : error + list (option (list string)) :=
  match c with
  | Tokens cells => inr cells
  | _ => inl SchemaError
  end.

Definition get_column (c : string) (df2 : table) : error + column :=
  match Dict.get c df2 with
  | Some col => inr col
  | None => inl ColumnNotFoundError
  end.

Definition drop_in_place (c : string) (df2 : table) : table :=
  filter (fun nc => negb (String.eqb (fst nc) c)) df2.

(** [pl.from_numpy(X.toarray(), columns=names)]: one column per name; the
    numbers of names and of matrix columns agree by [shape_contract]. *)
Definition from_numpy (X : list (list score)) (names : list string) : table :=
  combine names (map Feature X).

(** The locals the loop over [text_cols] updates: the frame [df2], the
    learned attributes of the one vectorizer object, and the frames
    appended to [new_columns] after its first element.  That first element
    is [df2] itself, the very object [drop_in_place] mutates, so it is kept
    once, in [loop_df2]. *)
Record locals : Type := {
  loop_df2 : table;
  loop_fitted : fitted;
  loop_new : list table
}.

(** The body of [for c in text_cols] (lines 75-95). *)
Definition text_column_step (p : params) (c : string) (loc : locals)
  : M locals :=
  col <- lift (get_column c (loop_df2 loc)) ;;
  text_column <- lift (to_list col) ;;
  new_list <- normalize_column text_column [] ;;
  match fit_transform p (loop_fitted loc) new_list with
  | None => lift (inl ValueError)
  | Some (X, f') =>
      let names := map (text_feature_name c) (get_feature_names_out f') in
      ret {| loop_df2 := drop_in_place c (loop_df2 loc);
             loop_fitted := f';
             loop_new := loop_new loc ++ [from_numpy X names] |}
  end.

Fixpoint text_loop (p : params) (text_cols : list string) (loc : locals)
  : M locals :=
  match text_cols with
  | [] => ret loc
  | c :: cs =>
      loc' <- text_column_step p c loc ;;
      text_loop p cs loc'
  end.

(** [pl.concat(new_columns, how="horizontal")] *)
Definition concat (frames : list table) : error + table :=
  let t := List.concat frames in
  if nodupb (Dict.keys t) then inr t else inl DuplicateError.

(** Lines 49-62, one expression: encode, convert to polars, clean. *)
Definition encode_and_clean (df : frame)
  (one_hot_cols text_cols : list string) (drop_first : bool)
  : error + table :=
  match get_dummies df one_hot_cols drop_first with
  | inl e => inl e
  | inr encoded =>
      match from_pandas encoded with
      | inl e => inl e
      | inr df2 => with_columns df2 text_cols
      end
  end.

(** Lines 65-66: [ps = PorterStemmer()] and [memo = {}]. *)
Definition initial_state : state :=
  {| memo := []; ps := PorterStemmer; trace := [] |}.

Definition transform_text_data (df : frame)
  (one_hot_cols text_cols : list string) (drop_first : bool)
  (vectorize_method : string) (max_df min_df : Q)
  : outcome (table * Dict.t (list string)) :=
  (df2 <- lift (encode_and_clean df one_hot_cols text_cols drop_first) ;;
   let vectorizer := make_vectorizer vectorize_method max_df min_df in
   loc <- text_loop vectorizer text_cols
            {| loop_df2 := df2; loop_fitted := unfitted; loop_new := [] |} ;;
   df_final <- lift (concat (loop_df2 loc :: loop_new loc)) ;;
   fun st => Ok (df_final, _reverse_memo (memo st)) st)
  initial_state.


(** *** The specification's reading of the vectorizing stage

    "Each text column gets an independently fitted vectorizer": the step
    below fits an object that has learned nothing yet, whatever the
    columns processed before. *)





(** *** Observations on a run and contracts of the vectorizer *)

(** The words passed to [ps.stem], in call order. *)
Fixpoint stem_calls (tr : list event) : list string :=
  match tr with
  | [] => []
  | StemCall w :: tr' => w :: stem_calls tr'
  | _ :: tr' => stem_calls tr'
  end.

Definition cached (m : Dict.t string) (w : string) : string :=
  match Dict.get w m with
  | Some s => s
  | None => EmptyString
  end.

(** The document of a row, read off a memo that knows all its tokens. *)
Definition render (m : Dict.t string) (tokens : option (list string))
  : string :=
  match tokens with
  | Some (w :: rest) => String.concat " " (map (cached m) (w :: rest))
  | Some [] => "Unknown"
  | None => "Unknown"
  end.

(** The invariant of the stemming state: the memo is a dictionary whose
    keys are the words stemmed so far, in call order, and every stem read
    from the memo is still the one stored there. *)
Definition inv (st : state) : Prop :=
  Dict.wf (memo st) /\
  stem_calls (trace st) = Dict.keys (memo st) /\
  (forall w s, In (MemoGet w s) (trace st) -> Dict.get w (memo st) = Some s).

(** The memo and the trace only grow. *)
Definition extends (st st' : state) : Prop :=
  (forall w s, Dict.get w (memo st) = Some s ->
               Dict.get w (memo st') = Some s) /\
  (exists tr, trace st' = trace st ++ tr).

(** A computation that always returns, keeps the invariant, only extends
    the state, and relates its result to the states by [Q]. *)
Definition returns {A} (m : M A) (Q : state -> A -> state -> Prop) : Prop :=
  forall st, inv st ->
    exists a st', m st = Ok a st' /\ inv st' /\ extends st st' /\ Q st a st'.

(** Every token of the row is a key of the memo. *)
Definition known (m : Dict.t string) (tokens : option (list string)) : Prop :=
  forall ws w, tokens = Some ws -> In w ws -> In w (Dict.keys m).

(** A computation that, returning or raising, keeps the invariant and only
    extends the state. *)
Definition safe {A} (m : M A) : Prop :=
  forall st, inv st ->
    inv (final_state (m st)) /\ extends st (final_state (m st)).

(** [t] holds the features the vectorizer gave for the text column [c],
    fitted on the documents of its rows [cells], taken in row order and
    read off the memo [m]. *)
Definition feature_frame (p : params) (m : Dict.t string) (c : string)
  (cells : list (option (list string))) (t : table) : Prop :=
  exists f X f',
    fit_transform p f (map (render m) cells) = Some (X, f') /\
    t = from_numpy X (map (text_feature_name c) (get_feature_names_out f')).



Fixpoint starts_with (prefix s : string) : bool :=
  match prefix, s with
  | EmptyString, _ => true
  | String a prefix', String b s' => Ascii.eqb a b && starts_with prefix' s'
  | String _ _, EmptyString => false
  end.

(** [c2] is [c1] followed by a suffix that starts with a colon. *)
Definition colon_extends (c1 c2 : string) : bool :=
  starts_with (c1 ++ ":") c2.

(** No name of one list is a name of the other, or a name of the other
    followed by a suffix that starts with a colon. *)
Definition separable (one_hot_cols text_cols : list string) : bool :=
  forallb (fun c1 =>
             forallb (fun c2 =>
                        negb (String.eqb c1 c2)
                        && negb (colon_extends c1 c2)
                        && negb (colon_extends c2 c1))
                     text_cols)
          one_hot_cols.


End Pipeline.

Arguments Ok {ext A} a st.
Arguments Raise {ext A} e st.

(* ===================================================================== *)
(** ** Concrete collaborators and inputs                                  *)
(* ===================================================================== *)

(** Small stand-ins for nltk and scikit-learn, on which the pipeline can be
    run: a stemmer that drops a final "s" and counts its calls, and a count
    vectorizer without pruning that rejects [min_df > max_df] when fitted. *)
Module Example.

Fixpoint strip_s (w : string) : string :=
  match w with
  | EmptyString => EmptyString
  | String c EmptyString =>
      if Ascii.eqb c "s" then EmptyString else String c EmptyString
  | String c rest => String c (strip_s rest)
  end.

Definition toy_vocabulary (docs : list string) : list string :=
  dedup (flat_map split docs).

Definition toy_count (term doc : string) : nat :=
  List.length (filter (String.eqb term) (split doc)).

Definition toy_fit (p : params) (f : list string) (docs : list string)
  : option (list (list nat) * list string) :=
  if Qle_bool (min_df p) (max_df p)
  then Some (map (fun term => map (toy_count term) docs)
                 (toy_vocabulary docs),
             toy_vocabulary docs)
  else None.

Definition toy : Collaborators := {|
  stop := ["the"];
  stemmer := nat;
  PorterStemmer := 0;
  stem := fun calls w => (strip_s w, S calls);
  score := nat;
  fitted := list string;
  unfitted := [];
  fit_transform := toy_fit;
  get_feature_names_out := fun vocabulary => vocabulary
|}.

Definition reviews : frame :=
  [("category", [Some "a"; Some "b"; Some "a"]);
   ("review", [Some "Good products"; None; Some "good  Product!!"])].

Definition example_memo : Dict.t string :=
  [("cats", "cat"); ("cat", "cat"); ("dogs", "dog")].


(** A category value and a column name that both contain the separator. *)
Definition colliding : frame :=
  [("a", [Some "b::word::good"; Some "c"]);
   ("a::b", [Some "good"; Some "bad"])].

End Example.

(* ===================================================================== *)
(** ** Further observations on the tokenizer, the memo and a run          *)
(* ===================================================================== *)

Fixpoint string_forallb (P : ascii -> bool) (s : string) : bool :=
  match s with
  | EmptyString => true
  | String c s' => P c && string_forallb P s'
  end.

(** The token holds no separator. *)
Definition no_space (tok : string) : bool :=
  string_forallb (fun c => negb (Ascii.eqb c " ")) tok.

Fixpoint count_spaces (s : string) : nat :=
  match s with
  | EmptyString => 0
  | String c s' => (if Ascii.eqb c " " then 1 else 0) + count_spaces s'
  end.


(** The elements of [l] that are not in [seen], each at its first
    occurrence. *)
Fixpoint first_seen (seen l : list string) : list string :=
  match l with
  | [] => []
  | x :: l' =>
      if mem x seen then first_seen seen l'
      else x :: first_seen (seen ++ [x]) l'
  end.

Definition first_occurrences (l : list string) : list string :=
  first_seen [] l.

Section Observations.
Context {ext : Collaborators}.




(** A computation that, returning or raising, keeps the property [P] of
    the state. *)
Definition keeps {A} (P : state -> Prop) (m : M A) : Prop :=
  forall st, P st -> P (final_state (m st)).


Definition is_feature (col : column) : bool :=
  match col with
  | Feature _ => true
  | _ => false
  end.

End Observations.

(* ===================================================================== *)
(** ** The model on small inputs                                          *)
(* ===================================================================== *)

Example clean_example : clean "good Product!!" = "good product".
Proof. reflexivity. Qed.

Example split_example :
  split "a  b " = ["a"; EmptyString; "b"; EmptyString].
Proof. reflexivity. Qed.

Example split_empty_example : split EmptyString = [EmptyString].
Proof. reflexivity. Qed.

Example levels_example :
  levels [Some "b"; None; Some "a"; Some "b"] = ["a"; "b"].
Proof. reflexivity. Qed.

Example reverse_memo_example :
  _reverse_memo Example.example_memo
  = [("cat", ["cats"; "cat"]); ("dog", ["dogs"])].
Proof. reflexivity. Qed.

Example dummies_example :
  get_dummies (ext := Example.toy) Example.reviews ["category"] true
  = inr [("review", Utf8 [Some "Good products"; None;
                          Some "good  Product!!"]);
         ("category::b", Dummy [false; true; false])].
Proof. reflexivity. Qed.

(* ===================================================================== *)
(** ** Facts about dictionaries                                           *)
(* ===================================================================== *)

Section DictFacts.
Context {V : Type}.
Implicit Types (d : Dict.t V) (k : string) (v : V).

Lemma get_set_eq d k v : Dict.get k (Dict.set k v d) = Some v.
Proof.
  induction d as [|[k' v'] d IH]; simpl.
  - now rewrite String.eqb_refl.
  - destruct (String.eqb k k') eqn:E; simpl; rewrite E; auto.
Qed.

Lemma get_set_ne d k k' v :
  k <> k' -> Dict.get k' (Dict.set k v d) = Dict.get k' d.
Proof.
  intros Hne. induction d as [|[k0 v0] d IH]; simpl.
  - destruct (String.eqb_spec k' k); congruence.
  - destruct (String.eqb_spec k k0); simpl.
    + subst. destruct (String.eqb_spec k' k0); congruence.
    + now rewrite IH.
Qed.

Lemma get_Some_In d k v : Dict.get k d = Some v -> In (k, v) d.
Proof.
  induction d as [|[k' v'] d IH]; simpl; [discriminate|].
  destruct (String.eqb_spec k k'); intros H.
  - inversion H; subst; auto.
  - auto.
Qed.

Lemma get_None_keys d k : Dict.get k d = None <-> ~ In k (Dict.keys d).
Proof.
  induction d as [|[k' v'] d IH]; simpl; [tauto|].
  destruct (String.eqb_spec k k').
  - subst. split; [discriminate | tauto].
  - rewrite IH. split; [intros H [?|?]; auto; congruence | tauto].
Qed.

Lemma get_Some_keys d k v : Dict.get k d = Some v -> In k (Dict.keys d).
Proof.
  intros H. apply get_Some_In in H. now apply (in_map fst) in H.
Qed.

Lemma contains_keys d k : Dict.contains k d = true <-> In k (Dict.keys d).
Proof.
  unfold Dict.contains. destruct (Dict.get k d) eqn:E.
  - apply get_Some_keys in E. tauto.
  - apply get_None_keys in E. split; [discriminate | tauto].
Qed.

Lemma In_wf_get d k v : Dict.wf d -> In (k, v) d -> Dict.get k d = Some v.
Proof.
  unfold Dict.wf. induction d as [|[k' v'] d IH]; simpl; [tauto|].
  intros Hnd [Heq|Hin].
  - inversion Heq; subst. now rewrite String.eqb_refl.
  - inversion Hnd; subst. destruct (String.eqb_spec k k').
    + subst. exfalso. apply H1. now apply (in_map fst) in Hin.
    + auto.
Qed.

Lemma keys_set d k v :
  Dict.keys (Dict.set k v d) =
  if Dict.contains k d then Dict.keys d else Dict.keys d ++ [k].
Proof.
  unfold Dict.contains.
  induction d as [|[k' v'] d IH]; simpl; [reflexivity|].
  destruct (String.eqb_spec k k'); simpl; [reflexivity|].
  rewrite IH. now destruct (Dict.get k d).
Qed.

Lemma NoDup_snoc (l : list string) (k : string) :
  NoDup l -> ~ In k l -> NoDup (l ++ [k]).
Proof.
  induction l as [|a l IH]; simpl; intros Hnd Hk.
  - constructor; [tauto | constructor].
  - inversion Hnd; subst. constructor.
    + rewrite in_app_iff. simpl. intros [?|[?|[]]]; [tauto|].
      subst. apply Hk. now left.
    + apply IH; auto.
Qed.

Lemma wf_set d k v : Dict.wf d -> Dict.wf (Dict.set k v d).
Proof.
  unfold Dict.wf. intros Hnd. rewrite keys_set.
  destruct (Dict.contains k d) eqn:E; [assumption|].
  apply NoDup_snoc; [assumption|].
  intros Hin. apply contains_keys in Hin. congruence.
Qed.

End DictFacts.

(* ===================================================================== *)
(** ** The memo reverser                                                  *)
(* ===================================================================== *)

Lemma total_len_set (d : Dict.t (list string)) k v :
  total_len (Dict.set k v d) + List.length (match Dict.get k d with
                                           | Some l => l
                                           | None => []
                                           end)
  = total_len d + List.length v.
Proof.
  unfold total_len, Dict.values.
  induction d as [|[k' v'] d IH]; simpl; [lia|].
  destruct (String.eqb_spec k k'); simpl; lia.
Qed.

Lemma reverse_loop_total items : forall out,
  total_len (reverse_loop items out) = total_len out + List.length items.
Proof.
  unfold reverse_loop.
  induction items as [|[k s] items IH]; intros out; simpl; [lia|].
  rewrite IH. unfold reverse_step.
  destruct (Dict.get s out) as [l|] eqn:E.
  - pose proof (total_len_set out s (l ++ [k])) as H. rewrite E in H.
    rewrite length_app in H. simpl in H. lia.
  - pose proof (total_len_set out s [k]) as H. rewrite E in H.
    simpl in H. lia.
Qed.

Lemma reverse_loop_wf items : forall out,
  Dict.wf out -> Dict.wf (reverse_loop items out).
Proof.
  unfold reverse_loop.
  induction items as [|[k s] items IH]; intros out Hwf; simpl; [assumption|].
  apply IH. unfold reverse_step.
  destruct (Dict.get s out); now apply wf_set.
Qed.

(** What the loop leaves under each stem: the list it found there, followed
    by the tokens of that stem in iteration order. *)
Lemma reverse_loop_get items : forall out s,
  Dict.get s (reverse_loop items out) =
  match Dict.get s out, tokens_of_stem s items with
  | Some l, ts => Some (l ++ ts)
  | None, [] => None
  | None, ts => Some ts
  end.
Proof.
  unfold reverse_loop, tokens_of_stem.
  induction items as [|[k v] items IH]; intros out s; simpl.
  - destruct (Dict.get s out); [now rewrite app_nil_r | reflexivity].
  - rewrite IH. unfold reverse_step.
    destruct (String.eqb_spec v s) as [->|Hne]; simpl.
    + destruct (Dict.get s out) as [l|] eqn:E; rewrite get_set_eq.
      * now rewrite <- app_assoc.
      * reflexivity.
    + destruct (Dict.get v out) as [l|] eqn:E;
        rewrite get_set_ne by assumption; reflexivity.
Qed.

Lemma reverse_memo_get memo s :
  Dict.get s (_reverse_memo memo) =
  match tokens_of_stem s memo with
  | [] => None
  | ts => Some ts
  end.
Proof. unfold _reverse_memo. now rewrite reverse_loop_get. Qed.

Lemma tokens_of_stem_In s items k :
  In k (tokens_of_stem s items) <-> In (k, s) items.
Proof.
  unfold tokens_of_stem. rewrite in_map_iff. split.
  - intros [[k' s'] [Hk Hin]]. apply filter_In in Hin. simpl in *.
    destruct Hin as [Hin Heq]. apply String.eqb_eq in Heq. now subst.
  - intros Hin. exists (k, s). split; [reflexivity|].
    apply filter_In. simpl. now rewrite String.eqb_refl.
Qed.

Lemma tokens_of_stem_NoDup s items :
  NoDup (map fst items) -> NoDup (tokens_of_stem s items).
Proof.
  unfold tokens_of_stem.
  induction items as [|[k v] items IH]; simpl; intros Hnd; [constructor|].
  inversion Hnd; subst.
  destruct (String.eqb v s); simpl; [|auto].
  constructor; [|auto].
  intros Hin. apply H1. apply in_map_iff in Hin.
  destruct Hin as [x [Hx Hin]]. apply filter_In in Hin.
  apply in_map_iff. exists x. tauto.
Qed.

(** C2. For every stem memo, [_reverse_memo] returns a dictionary in which
    every raw token of the memo sits in exactly one list, exactly once, the
    list kept under that token's stem; the lists hold nothing but tokens of
    the memo; their lengths add up to the number of (distinct) keys of the
    memo; and the stems that key the result are exactly the values of the
    memo. *)
Theorem reverse_memo_complete (memo : Dict.t string) :
  Dict.wf memo ->
  Dict.wf (_reverse_memo memo) /\
  (forall k s, Dict.get k memo = Some s ->
     exists l, Dict.get s (_reverse_memo memo) = Some l /\
               count_occ string_dec l k = 1 /\
               forall s' l', Dict.get s' (_reverse_memo memo) = Some l' ->
                             In k l' -> s' = s) /\
  (forall s l k, Dict.get s (_reverse_memo memo) = Some l -> In k l ->
     Dict.get k memo = Some s) /\
  total_len (_reverse_memo memo) = List.length (Dict.keys memo) /\
  (forall s, In s (Dict.keys (_reverse_memo memo)) <->
             In s (Dict.values memo)).
Proof.
  intros Hwf.
  assert (Hback : forall s l k,
             Dict.get s (_reverse_memo memo) = Some l -> In k l ->
             Dict.get k memo = Some s).
  { intros s l k Hget Hin. rewrite reverse_memo_get in Hget.
    apply In_wf_get; [assumption|]. apply tokens_of_stem_In.
    destruct (tokens_of_stem s memo); [discriminate|].
    now inversion Hget; subst. }
  split; [|split; [|split; [|split]]].
  - unfold _reverse_memo. apply reverse_loop_wf. constructor.
  - intros k s Hget.
    assert (Hin : In k (tokens_of_stem s memo)).
    { apply tokens_of_stem_In. now apply get_Some_In. }
    exists (tokens_of_stem s memo). split; [|split].
    + rewrite reverse_memo_get.
      destruct (tokens_of_stem s memo); [contradiction | reflexivity].
    + apply NoDup_count_occ'; [|assumption].
      now apply tokens_of_stem_NoDup.
    + intros s' l' Hget' Hin'.
      pose proof (Hback _ _ _ Hget' Hin'). congruence.
  - exact Hback.
  - unfold _reverse_memo. rewrite reverse_loop_total.
    unfold Dict.keys. rewrite length_map. reflexivity.
  - intros s. split.
    + intros Hin. apply contains_keys in Hin. unfold Dict.contains in Hin.
      rewrite reverse_memo_get in Hin.
      destruct (tokens_of_stem s memo) as [|k ts] eqn:E; [discriminate|].
      assert (Hk : In k (tokens_of_stem s memo)) by (rewrite E; now left).
      apply tokens_of_stem_In in Hk.
      now apply (in_map snd) in Hk.
    + intros Hin. apply in_map_iff in Hin. destruct Hin as [[k s'] [Hs Hin]].
      simpl in Hs. subst. apply tokens_of_stem_In in Hin.
      apply contains_keys. unfold Dict.contains. rewrite reverse_memo_get.
      destruct (tokens_of_stem s memo); [contradiction | reflexivity].
Qed.

(* ===================================================================== *)
(** ** The stemming loop                                                  *)
(* ===================================================================== *)

Section StemmingFacts.
Context {ext : Collaborators}.

Lemma stem_calls_app tr1 tr2 :
  stem_calls (tr1 ++ tr2) = stem_calls tr1 ++ stem_calls tr2.
Proof.
  induction tr1 as [|e tr1 IH]; simpl; [reflexivity|].
  destruct e; simpl; now rewrite ?IH.
Qed.

Lemma extends_refl st : extends st st.
Proof. split; [auto | exists []; now rewrite app_nil_r]. Qed.

Lemma extends_trans st1 st2 st3 :
  extends st1 st2 -> extends st2 st3 -> extends st1 st3.
Proof.
  intros [H1 [tr1 E1]] [H2 [tr2 E2]]. split; [auto|].
  exists (tr1 ++ tr2). now rewrite E2, E1, app_assoc.
Qed.

Lemma extends_keys st st' w :
  extends st st' -> In w (Dict.keys (memo st)) -> In w (Dict.keys (memo st')).
Proof.
  intros [H _] Hin. apply contains_keys in Hin. unfold Dict.contains in Hin.
  destruct (Dict.get w (memo st)) eqn:E; [|discriminate].
  apply H in E. now apply get_Some_keys in E.
Qed.

Lemma extends_cached st st' w :
  extends st st' -> In w (Dict.keys (memo st)) ->
  cached (memo st') w = cached (memo st) w.
Proof.
  intros [H _] Hin. apply contains_keys in Hin. unfold Dict.contains in Hin.
  unfold cached. destruct (Dict.get w (memo st)) eqn:E; [|discriminate].
  now rewrite (H _ _ E).
Qed.

Lemma extends_map_cached st st' ws :
  extends st st' -> (forall w, In w ws -> In w (Dict.keys (memo st))) ->
  map (cached (memo st')) ws = map (cached (memo st)) ws.
Proof.
  intros Hext Hin. apply map_ext_in. intros w Hw.
  apply extends_cached; auto.
Qed.

(** Lines 81-83: the word is stemmed when, and only when, the memo does not
    know it; the stem handed back is the one the memo holds afterwards. *)
Lemma stem_word_returns w :
  returns (stem_word w)
    (fun st s st' =>
       Dict.get w (memo st') = Some s /\
       stem_calls (trace st') =
         stem_calls (trace st) ++
         (if Dict.contains w (memo st) then [] else [w])).
Proof.
  intros st (Hwf & Hcalls & Hget). unfold stem_word.
  destruct (Dict.contains w (memo st)) eqn:Hc.
  - unfold Dict.contains in Hc. simpl.
    destruct (Dict.get w (memo st)) as [s|] eqn:E; [|discriminate].
    eexists _, _. split; [reflexivity|]. simpl.
    assert (Hc' : stem_calls ((trace st ++ [MemoContains w]) ++ [MemoGet w s])
                  = stem_calls (trace st)).
    { rewrite !stem_calls_app. simpl. now rewrite !app_nil_r. }
    split; [|split; [|split]].
    + unfold inv; simpl. split; [assumption|]. split; [now rewrite Hc'|].
      intros w0 s0 Hin. rewrite !in_app_iff in Hin. simpl in Hin.
      destruct Hin as [[Hin|[Hin|[]]]|[Hin|[]]]; auto; try discriminate.
      now inversion Hin; subst.
    + unfold extends; simpl. split; [auto|]. eexists. now rewrite <- app_assoc.
    + assumption.
    + now rewrite Hc', app_nil_r.
  - destruct (stem (ps st) w) as [s ps'] eqn:Es. simpl.
    rewrite get_set_eq.
    assert (Hnot : ~ In w (Dict.keys (memo st))).
    { intros Hin. apply contains_keys in Hin. congruence. }
    assert (Hkeep : forall w0 s0, Dict.get w0 (memo st) = Some s0 ->
                      Dict.get w0 (Dict.set w s (memo st)) = Some s0).
    { intros w0 s0 H0. rewrite get_set_ne; [assumption|].
      intros ->. apply Hnot. now apply get_Some_keys in H0. }
    eexists _, _. split; [reflexivity|]. simpl.
    assert (Hc' : stem_calls
                    ((trace st ++ [MemoContains w; StemCall w; MemoSet w s])
                     ++ [MemoGet w s])
                  = stem_calls (trace st) ++ [w]).
    { rewrite !stem_calls_app. simpl. now rewrite !app_nil_r. }
    split; [|split; [|split]].
    + unfold inv; simpl. split; [now apply wf_set|]. split.
      * rewrite Hc', keys_set, Hc. now rewrite Hcalls.
      * intros w0 s0 Hin. rewrite !in_app_iff in Hin. simpl in Hin.
        destruct Hin as [[Hin|[Hin|[Hin|[Hin|[]]]]]|[Hin|[]]];
          auto; try discriminate.
        inversion Hin; subst. apply get_set_eq.
    + unfold extends; simpl. split; [assumption|]. eexists.
      now rewrite <- app_assoc.
    + apply get_set_eq.
    + exact Hc'.
Qed.

(** Lines 79-83: every token ends up in the memo and is replaced by the
    stem cached for it. *)
Lemma stem_tokens_returns tokens : forall new_tokens,
  returns (stem_tokens tokens new_tokens)
    (fun st out st' =>
       out = new_tokens ++ map (cached (memo st')) tokens /\
       forall w, In w tokens -> In w (Dict.keys (memo st'))).
Proof.
  induction tokens as [|w rest IH]; intros acc st Hinv; simpl.
  - exists acc, st. unfold ret.
    split; [reflexivity|]. split; [assumption|].
    split; [apply extends_refl|]. split; [now rewrite app_nil_r|].
    contradiction.
  - unfold bind.
    destruct (stem_word_returns w st Hinv)
      as (s & st1 & E1 & Hinv1 & Hext1 & Hs & _).
    rewrite E1.
    destruct (IH (acc ++ [s]) st1 Hinv1)
      as (out & st2 & E2 & Hinv2 & Hext2 & Hout & Hin).
    exists out, st2. rewrite E2.
    split; [reflexivity|]. split; [assumption|].
    split; [|split].
    + eapply extends_trans; eauto.
    + subst out. rewrite <- app_assoc. simpl. f_equal. f_equal.
      unfold cached. destruct Hext2 as [Hk _]. now rewrite (Hk _ _ Hs).
    + intros w0 [<-|Hw0]; [|auto].
      eapply extends_keys; [exact Hext2|]. now apply get_Some_keys in Hs.
Qed.

(** Lines 78-87 for one row. *)
Lemma normalize_row_returns tokens :
  returns (normalize_row tokens)
    (fun st doc st' =>
       doc = render (memo st') tokens /\ known (memo st') tokens).
Proof.
  intros st Hinv. destruct tokens as [[|w rest]|]; unfold normalize_row.
  - exists "Unknown", st. unfold ret.
    split; [reflexivity|]. split; [assumption|].
    split; [apply extends_refl|]. split; [reflexivity|].
    intros ws w H. inversion H; subst. contradiction.
  - unfold bind.
    destruct (stem_tokens_returns (w :: rest) [] st Hinv)
      as (out & st1 & E1 & Hinv1 & Hext1 & Hout & Hin).
    rewrite E1. exists (String.concat " " out), st1. unfold ret.
    split; [reflexivity|]. split; [assumption|].
    split; [assumption|]. split.
    + subst out. reflexivity.
    + intros ws w0 H. inversion H; subst. auto.
  - exists "Unknown", st. unfold ret.
    split; [reflexivity|]. split; [assumption|].
    split; [apply extends_refl|]. split; [reflexivity|].
    intros ws w H. discriminate.
Qed.

Lemma render_extends st st' tokens :
  extends st st' -> known (memo st) tokens ->
  render (memo st') tokens = render (memo st) tokens.
Proof.
  intros Hext Hk. destruct tokens as [[|w rest]|]; unfold render;
    try reflexivity.
  f_equal. apply extends_map_cached; [assumption|].
  intros w0 Hw0. eapply Hk; [reflexivity | assumption].
Qed.

Lemma known_extends st st' tokens :
  extends st st' -> known (memo st) tokens -> known (memo st') tokens.
Proof.
  intros Hext Hk ws w E Hin. eapply extends_keys; eauto.
Qed.

(** Lines 77-87 for one column: one document per row, in row order. *)
Lemma normalize_column_returns text_column : forall new_list,
  returns (normalize_column text_column new_list)
    (fun st docs st' =>
       docs = new_list ++ map (render (memo st')) text_column /\
       Forall (known (memo st')) text_column).
Proof.
  induction text_column as [|tokens rest IH]; intros acc st Hinv; simpl.
  - exists acc, st. unfold ret.
    split; [reflexivity|]. split; [assumption|].
    split; [apply extends_refl|]. split; [now rewrite app_nil_r|].
    constructor.
  - unfold bind.
    destruct (normalize_row_returns tokens st Hinv)
      as (doc & st1 & E1 & Hinv1 & Hext1 & Hdoc & Hk1).
    rewrite E1.
    destruct (IH (acc ++ [doc]) st1 Hinv1)
      as (docs & st2 & E2 & Hinv2 & Hext2 & Hdocs & Hk2).
    exists docs, st2. rewrite E2.
    split; [reflexivity|]. split; [assumption|].
    split; [|split].
    + eapply extends_trans; eauto.
    + subst docs doc. rewrite <- app_assoc. simpl.
      now rewrite (render_extends st1 st2).
    + constructor; [|assumption]. eapply known_extends; eauto.
Qed.

End StemmingFacts.

(* ===================================================================== *)
(** ** Encoding and cleaning the frame                                    *)
(* ===================================================================== *)

Lemma mem_In x l : mem x l = true <-> In x l.
Proof.
  unfold mem. rewrite existsb_exists. split.
  - intros [y [Hin Heq]]. apply String.eqb_eq in Heq. now subst.
  - intros Hin. exists x. split; [assumption | apply String.eqb_refl].
Qed.

Lemma mem_false x l : mem x l = false <-> ~ In x l.
Proof.
  rewrite <- mem_In. destruct (mem x l); split; congruence.
Qed.

Lemma nodupb_NoDup l : nodupb l = true <-> NoDup l.
Proof.
  induction l as [|x l IH]; simpl.
  - split; [constructor | reflexivity].
  - rewrite andb_true_iff, negb_true_iff, IH.
    fold (mem x l). rewrite mem_false. split.
    + intros [H1 H2]. now constructor.
    + intros H. inversion H; subst. tauto.
Qed.

Section TableFacts.
Context {ext : Collaborators}.
Implicit Types (t : table) (df : frame).

Lemma get_app {V} (k : string) (d1 d2 : Dict.t V) :
  Dict.get k (d1 ++ d2) =
  match Dict.get k d1 with
  | Some v => Some v
  | None => Dict.get k d2
  end.
Proof.
  induction d1 as [|[k' v'] d1 IH]; simpl; [reflexivity|].
  now destruct (String.eqb k k').
Qed.

Lemma In_set {V} (d : Dict.t V) k v n x :
  In (n, x) (Dict.set k v d) -> (n = k /\ x = v) \/ In (n, x) d.
Proof.
  induction d as [|[k' v'] d IH]; simpl.
  - intros [H|[]]. inversion H; subst. now left.
  - destruct (String.eqb_spec k k'); simpl.
    + subst. intros [H|H]; [|tauto]. inversion H; subst. now left.
    + intros [H|H]; [tauto|]. apply IH in H. tauto.
Qed.

Lemma keys_set_present {V} (d : Dict.t V) k v x :
  Dict.get k d = Some x -> Dict.keys (Dict.set k v d) = Dict.keys d.
Proof.
  intros H. rewrite keys_set. unfold Dict.contains. now rewrite H.
Qed.

(** *** [get_dummies] *)

Lemma encode_Some df columns drop_first ds :
  encode df columns drop_first = Some ds ->
  (forall c, In c columns -> exists cells, Dict.get c df = Some cells) /\
  (forall n col, In (n, col) ds ->
     exists c cells l, In c columns /\ Dict.get c df = Some cells /\
                       n = one_hot_name c l /\
                       col = Dummy (map (is_level l) cells)).
Proof.
  revert ds. induction columns as [|c cs IH]; simpl; intros ds H.
  - inversion H; subst. split; intros; contradiction.
  - destruct (Dict.get c df) as [cells|] eqn:Ec; [|discriminate].
    destruct (encode df cs drop_first) as [rest|]; [|discriminate].
    inversion H; subst. destruct (IH rest eq_refl) as [IH1 IH2]. split.
    + intros c' [<-|Hin]; eauto.
    + intros n col Hin. apply in_app_or in Hin. destruct Hin as [Hin|Hin].
      * unfold dummies in Hin. apply in_map_iff in Hin.
        destruct Hin as [l [Heq _]]. inversion Heq; subst.
        exists c, cells, l. auto.
      * destruct (IH2 _ _ Hin) as (c' & cells' & l & H1 & H2 & H3 & H4).
        exists c', cells', l. auto.
Qed.

Lemma encode_None df columns drop_first :
  encode df columns drop_first = None <->
  exists c, In c columns /\ Dict.get c df = None.
Proof.
  induction columns as [|c cs IH]; simpl.
  - split; [discriminate | intros [c [[] _]]].
  - destruct (Dict.get c df) as [cells|] eqn:Ec.
    + destruct (encode df cs drop_first) as [rest|].
      * split; [discriminate|]. intros [c' [[<-|Hin] Hc']]; [congruence|].
        assert (H : Some rest = None) by (apply IH; eauto). discriminate.
      * split; [|reflexivity]. intros _.
        destruct (proj1 IH eq_refl) as [c' [Hin Hc']]. eauto.
    + split; [|reflexivity]. intros _. eauto.
Qed.

Lemma get_untouched df columns n :
  Dict.get n (map (fun nc => (fst nc, Utf8 (snd nc)))
                  (filter (fun nc => negb (mem (fst nc) columns)) df)) =
  if mem n columns then None else option_map Utf8 (Dict.get n df).
Proof.
  induction df as [|[k cells] df IH]; simpl.
  - now destruct (mem n columns).
  - destruct (mem k columns) eqn:Ek; simpl.
    + rewrite IH. destruct (String.eqb_spec n k); [|reflexivity].
      subst. now rewrite Ek.
    + rewrite IH. destruct (String.eqb_spec n k); [|reflexivity].
      subst. now rewrite Ek.
Qed.

(** What [get_dummies] returns: the columns it leaves alone, unchanged, and
    indicator columns named after an encoded column and one category. *)
Lemma get_dummies_inr df columns drop_first t :
  get_dummies df columns drop_first = inr t ->
  (forall c, In c columns -> exists cells, Dict.get c df = Some cells) /\
  (forall n col, In (n, col) t ->
     (exists cells, col = Utf8 cells /\ In (n, cells) df /\ ~ In n columns) \/
     (exists c cells l, In c columns /\ Dict.get c df = Some cells /\
                        n = one_hot_name c l /\
                        col = Dummy (map (is_level l) cells))) /\
  (forall n cells, Dict.get n t = Some (Utf8 cells) ->
     Dict.get n df = Some cells /\ ~ In n columns).
Proof.
  unfold get_dummies.
  destruct (encode df columns drop_first) as [ds|] eqn:E; [|discriminate].
  intros H. inversion H; subst. clear H.
  destruct (encode_Some _ _ _ _ E) as [H1 H2].
  split; [assumption|]. split.
  - intros n col Hin. apply in_app_or in Hin. destruct Hin as [Hin|Hin].
    + left. apply in_map_iff in Hin. destruct Hin as [[k cells] [Heq Hin]].
      simpl in Heq. inversion Heq; subst. apply filter_In in Hin.
      destruct Hin as [Hin Hm]. simpl in Hm.
      apply negb_true_iff, mem_false in Hm. eauto.
    + right. auto.
  - intros n cells Hget. rewrite get_app, get_untouched in Hget.
    destruct (mem n columns) eqn:Em.
    + apply get_Some_In in Hget.
      destruct (H2 _ _ Hget) as (c & cells' & l & _ & _ & _ & Hd).
      discriminate.
    + apply mem_false in Em.
      destruct (Dict.get n df) as [cells'|]; simpl in Hget.
      * inversion Hget; subst. auto.
      * apply get_Some_In in Hget.
        destruct (H2 _ _ Hget) as (c & cells' & l & _ & _ & _ & Hd).
        discriminate.
Qed.

Lemma get_dummies_inl df columns drop_first e :
  get_dummies df columns drop_first = inl e <->
  e = KeyError /\ exists c, In c columns /\ Dict.get c df = None.
Proof.
  unfold get_dummies.
  destruct (encode df columns drop_first) as [ds|] eqn:E.
  - split; [discriminate|]. intros [_ H].
    apply (proj2 (encode_None df columns drop_first)) in H. congruence.
  - apply encode_None in E. split.
    + intros H. inversion H. auto.
    + intros [-> _]. reflexivity.
Qed.

(** *** [with_columns] *)

Lemma replace_columns_inr text_cols : forall df2 df3 : table,
  replace_columns df2 text_cols = inr df3 ->
  Dict.keys df3 = Dict.keys df2 /\
  (forall n col, In (n, col) df3 ->
     In (n, col) df2 \/
     exists cells, In n text_cols /\ In (n, Utf8 cells) df2 /\
                   col = Tokens (map tokenize cells)) /\
  (forall n, ~ In n text_cols -> Dict.get n df3 = Dict.get n df2).
Proof.
  induction text_cols as [|c cs IH]; simpl; intros df2 df3 H.
  - inversion H; subst. split; [reflexivity|]. split; auto.
  - destruct (Dict.get c df2) as [[cells| | |]|] eqn:Ec; try discriminate.
    apply IH in H. destruct H as (Hk & Hin & Hget).
    split; [|split].
    + rewrite Hk. eapply keys_set_present; eauto.
    + intros n col Hn. apply Hin in Hn.
      destruct Hn as [Hn|(cells' & H1 & H2 & H3)].
      * apply In_set in Hn. destruct Hn as [[-> ->]|Hn]; [|now left].
        right. exists cells. split; [now left|]. split; [|reflexivity].
        now apply get_Some_In.
      * apply In_set in H2. destruct H2 as [[_ H2]|H2]; [discriminate|].
        right. exists cells'. auto.
    + intros n Hn. rewrite Hget by tauto. apply get_set_ne.
      intros ->. apply Hn. now left.
Qed.

Lemma replace_columns_tokens text_cols : forall df2 df3 : table,
  NoDup text_cols ->
  replace_columns df2 text_cols = inr df3 ->
  forall c, In c text_cols ->
    exists cells, Dict.get c df2 = Some (Utf8 cells) /\
                  Dict.get c df3 = Some (Tokens (map tokenize cells)).
Proof.
  induction text_cols as [|t ts IH]; simpl; intros df2 df3 Hnd H c Hc.
  - contradiction.
  - apply NoDup_cons_iff in Hnd. destruct Hnd as [Hnot Hnd].
    destruct (Dict.get t df2) as [[cells| | |]|] eqn:Et; try discriminate.
    destruct Hc as [<-|Hc].
    + exists cells. split; [assumption|].
      destruct (replace_columns_inr _ _ _ H) as (_ & _ & Hget).
      rewrite Hget by assumption. apply get_set_eq.
    + destruct (IH _ _ Hnd H c Hc) as (cells' & Hc1 & Hc2).
      exists cells'. split; [|assumption].
      rewrite get_set_ne in Hc1; [assumption|]. intros ->. contradiction.
Qed.

Lemma with_columns_inr (df2 : table) text_cols (df3 : table) :
  with_columns df2 text_cols = inr df3 ->
  NoDup text_cols /\ replace_columns df2 text_cols = inr df3.
Proof.
  unfold with_columns. destruct (nodupb text_cols) eqn:E; [|discriminate].
  apply nodupb_NoDup in E. auto.
Qed.

Lemma from_pandas_inr t t' :
  from_pandas t = inr t' -> t' = t /\ Dict.wf t.
Proof.
  unfold from_pandas. destruct (nodupb (Dict.keys t)) eqn:E; [|discriminate].
  intros H. inversion H; subst. split; [reflexivity|].
  now apply nodupb_NoDup.
Qed.

(** *** [drop_in_place] *)

Lemma get_drop_ne c n (df2 : table) :
  n <> c -> Dict.get n (drop_in_place c df2) = Dict.get n df2.
Proof.
  intros Hne. unfold drop_in_place.
  induction df2 as [|[k v] df2 IH]; simpl; [reflexivity|].
  destruct (String.eqb_spec k c); simpl.
  - subst. destruct (String.eqb_spec n c); [contradiction | assumption].
  - rewrite IH. reflexivity.
Qed.

Lemma drop_filter c cs (df2 : table) :
  filter (fun nc => negb (mem (fst nc) cs)) (drop_in_place c df2) =
  filter (fun nc => negb (mem (fst nc) (c :: cs))) df2.
Proof.
  unfold drop_in_place. induction df2 as [|[k v] df2 IH]; simpl;
    [reflexivity|].
  destruct (String.eqb_spec k c) as [->|Hne]; simpl.
  - exact IH.
  - now rewrite IH.
Qed.

Lemma drop_none (df2 : table) :
  filter (fun nc => negb (mem (fst nc) [])) df2 = df2.
Proof.
  induction df2 as [|x l IH]; simpl; [reflexivity | now f_equal].
Qed.

End TableFacts.

(* ===================================================================== *)
(** ** The loop over the text columns                                     *)
(* ===================================================================== *)

Section LoopFacts.
Context {ext : Collaborators}.

Lemma safe_ret {A} (a : A) : safe (ret a).
Proof. intros st H. simpl. split; [assumption | apply extends_refl]. Qed.

Lemma safe_lift {A} (r : error + A) : safe (lift r).
Proof.
  intros st H. unfold lift. destruct r; simpl;
    (split; [assumption | apply extends_refl]).
Qed.

Lemma safe_bind {A B} (m : M A) (k : A -> M B) :
  safe m -> (forall a, safe (k a)) -> safe (bind m k).
Proof.
  intros Hm Hk st H. unfold bind. destruct (Hm st H) as [H1 H2].
  destruct (m st) as [a st1|e st1]; simpl in *.
  - destruct (Hk a st1 H1) as [H3 H4]. split; [assumption|].
    eapply extends_trans; eauto.
  - auto.
Qed.

Lemma returns_safe {A} (m : M A) Q : returns m Q -> safe m.
Proof.
  intros Hm st H. destruct (Hm st H) as (a & st1 & E & H1 & H2 & _).
  rewrite E. simpl. auto.
Qed.

(** One pass of the loop body over a column of token lists: the column is
    stemmed first, then the vectorizer is fitted on its documents. *)
Lemma text_column_step_spec p c loc st cells :
  inv st ->
  Dict.get c (loop_df2 loc) = Some (Tokens cells) ->
  exists st',
    inv st' /\ extends st st' /\ Forall (known (memo st')) cells /\
    text_column_step p c loc st =
    match fit_transform p (loop_fitted loc)
            (map (render (memo st')) cells) with
    | None => Raise ValueError st'
    | Some (X, f') =>
        Ok {| loop_df2 := drop_in_place c (loop_df2 loc);
              loop_fitted := f';
              loop_new :=
                loop_new loc ++
                [from_numpy X (map (text_feature_name c)
                                   (get_feature_names_out f'))] |} st'
    end.
Proof.
  intros Hinv Hget.
  destruct (normalize_column_returns cells [] st Hinv)
    as (docs & st1 & E & Hinv1 & Hext1 & Hdocs & Hk).
  simpl in Hdocs. subst docs.
  exists st1. split; [assumption|]. split; [assumption|].
  split; [assumption|].
  unfold text_column_step, bind, lift, get_column. rewrite Hget. simpl.
  rewrite E.
  destruct (fit_transform p (loop_fitted loc)
              (map (render (memo st1)) cells)) as [[X f']|]; reflexivity.
Qed.

Lemma text_column_step_safe p c loc : safe (text_column_step p c loc).
Proof.
  intros st Hinv.
  destruct (Dict.get c (loop_df2 loc)) as [col|] eqn:Hget.
  - destruct col as [cells|cells|cells|cells];
      try (unfold text_column_step, bind, lift, get_column;
           rewrite Hget; simpl; split; [assumption | apply extends_refl]).
    destruct (text_column_step_spec p c loc st cells Hinv Hget)
      as (st1 & Hinv1 & Hext1 & _ & E).
    rewrite E.
    destruct (fit_transform p (loop_fitted loc)
                (map (render (memo st1)) cells)) as [[X f']|]; simpl; auto.
  - unfold text_column_step, bind, lift, get_column. rewrite Hget. simpl.
    split; [assumption | apply extends_refl].
Qed.

Lemma text_loop_safe p text_cols : forall loc, safe (text_loop p text_cols loc).
Proof.
  induction text_cols as [|c cs IH]; intros loc; simpl.
  - apply safe_ret.
  - apply safe_bind; [apply text_column_step_safe | assumption].
Qed.

Lemma feature_frame_extends p st st' c cells t :
  extends st st' -> Forall (known (memo st)) cells ->
  feature_frame p (memo st) c cells t -> feature_frame p (memo st') c cells t.
Proof.
  intros Hext Hk (f & X & f' & Hfit & Ht). exists f, X, f'.
  split; [|assumption]. rewrite <- Hfit. f_equal.
  apply map_ext_in. intros tokens Hin.
  apply render_extends; [assumption|].
  rewrite Forall_forall in Hk. auto.
Qed.

(** The loop, when it completes: the text columns are gone from [df2] and
    one frame of features per text column has been appended, in order. *)
Lemma text_loop_Ok p text_cols : forall loc st loc' st',
  inv st -> NoDup text_cols ->
  (forall c, In c text_cols ->
     exists cells, Dict.get c (loop_df2 loc) = Some (Tokens cells)) ->
  text_loop p text_cols loc st = Ok loc' st' ->
  inv st' /\ extends st st' /\
  loop_df2 loc' =
    filter (fun nc => negb (mem (fst nc) text_cols)) (loop_df2 loc) /\
  exists news,
    loop_new loc' = loop_new loc ++ news /\
    Forall2 (fun c t =>
               exists cells,
                 Dict.get c (loop_df2 loc) = Some (Tokens cells) /\
                 Forall (known (memo st')) cells /\
                 feature_frame p (memo st') c cells t)
            text_cols news.
Proof.
  induction text_cols as [|c cs IH]; intros loc st loc' st' Hinv Hnd Htok H.
  - simpl in H. inversion H; subst.
    split; [assumption|]. split; [apply extends_refl|]. split.
    + symmetry. apply drop_none.
    + exists []. split; [now rewrite app_nil_r | constructor].
  - apply NoDup_cons_iff in Hnd. destruct Hnd as [Hnot Hnd].
    destruct (Htok c (or_introl eq_refl)) as [cells Hget].
    destruct (text_column_step_spec p c loc st cells Hinv Hget)
      as (st1 & Hinv1 & Hext1 & Hk1 & E).
    simpl in H. unfold bind in H. rewrite E in H.
    destruct (fit_transform p (loop_fitted loc)
                (map (render (memo st1)) cells)) as [[X f']|] eqn:Hfit;
      [|discriminate].
    apply IH in H; [|assumption|assumption|].
    + destruct H as (Hinv' & Hext' & Hdf & news & Hnew & Hall).
      simpl in Hdf, Hnew.
      split; [assumption|]. split; [eapply extends_trans; eauto|].
      split; [now rewrite Hdf, drop_filter|].
      eexists (_ :: news). split; [now rewrite Hnew, <- app_assoc|].
      constructor.
      * exists cells. split; [assumption|]. split.
        -- eapply Forall_impl; [|exact Hk1]. intros tokens.
           now apply known_extends.
        -- apply (feature_frame_extends p st1 st'); [assumption..|].
           exists (loop_fitted loc), X, f'. auto.
      * eapply Forall2_impl; [|exact Hall]. simpl.
        intros c' t (cells' & Hg & Hk & Hf). exists cells'.
        split; [|auto].
        destruct (String.eqb_spec c' c) as [->|Hne].
        -- unfold drop_in_place in Hg. apply get_Some_In in Hg.
           apply filter_In in Hg. simpl in Hg.
           rewrite String.eqb_refl in Hg. destruct Hg; discriminate.
        -- now rewrite get_drop_ne in Hg.
    + simpl. intros c' Hc'. destruct (Htok c' (or_intror Hc')) as [cells' Hg].
      exists cells'. rewrite get_drop_ne; [assumption|].
      intros ->. contradiction.
Qed.

(** The loop, when it raises: the error is the vectorizer's, and by then
    the first text column has been stemmed. *)
Lemma text_loop_Raise p text_cols : forall loc st e st',
  inv st -> NoDup text_cols ->
  (forall c, In c text_cols ->
     exists cells, Dict.get c (loop_df2 loc) = Some (Tokens cells)) ->
  text_loop p text_cols loc st = Raise e st' ->
  e = ValueError /\
  exists c cs cells,
    text_cols = c :: cs /\
    Dict.get c (loop_df2 loc) = Some (Tokens cells) /\
    Forall (known (memo st')) cells.
Proof.
  induction text_cols as [|c cs IH]; intros loc st e st' Hinv Hnd Htok H.
  - discriminate.
  - apply NoDup_cons_iff in Hnd. destruct Hnd as [Hnot Hnd].
    destruct (Htok c (or_introl eq_refl)) as [cells Hget].
    destruct (text_column_step_spec p c loc st cells Hinv Hget)
      as (st1 & Hinv1 & Hext1 & Hk1 & E).
    simpl in H. unfold bind in H. rewrite E in H.
    destruct (fit_transform p (loop_fitted loc)
                (map (render (memo st1)) cells)) as [[X f']|] eqn:Hfit.
    + match type of H with
      | text_loop _ _ ?l _ = _ =>
          pose proof (text_loop_safe p cs l st1 Hinv1) as [_ Hext]
      end.
      rewrite H in Hext. simpl in Hext.
      apply IH in H; [|assumption|assumption|].
      * destruct H as [-> _]. split; [reflexivity|].
        exists c, cs, cells. split; [reflexivity|]. split; [assumption|].
        eapply Forall_impl; [|exact Hk1]. intros tokens.
        now apply known_extends.
      * simpl. intros c' Hc'.
        destruct (Htok c' (or_intror Hc')) as [cells' Hg].
        exists cells'. rewrite get_drop_ne; [assumption|].
        intros ->. contradiction.
    + inversion H; subst. split; [reflexivity|].
      exists c, cs, cells. auto.
Qed.

End LoopFacts.

(* ===================================================================== *)
(** ** A whole run                                                        *)
(* ===================================================================== *)

Section RunFacts.
Context {ext : Collaborators}.

Lemma inv_initial : inv initial_state.
Proof.
  unfold inv, initial_state. simpl. split; [constructor|].
  split; [reflexivity | contradiction].
Qed.

(** The stages of [transform_text_data], one after the other. *)
Lemma transform_unfold df one_hot_cols text_cols drop_first method mx mn :
  transform_text_data df one_hot_cols text_cols drop_first method mx mn =
  match encode_and_clean df one_hot_cols text_cols drop_first with
  | inl e => Raise e initial_state
  | inr df2 =>
      match text_loop (make_vectorizer method mx mn) text_cols
              {| loop_df2 := df2; loop_fitted := unfitted; loop_new := [] |}
              initial_state with
      | Raise e st => Raise e st
      | Ok loc st =>
          match concat (loop_df2 loc :: loop_new loc) with
          | inl e => Raise e st
          | inr df_final => Ok (df_final, _reverse_memo (memo st)) st
          end
      end
  end.
Proof.
  unfold transform_text_data, bind, lift.
  destruct (encode_and_clean df one_hot_cols text_cols drop_first);
    [reflexivity|].
  destruct (text_loop _ _ _ _); [|reflexivity].
  destruct (concat _); reflexivity.
Qed.

(** What the encoding and cleaning stage hands to the loop. *)
Lemma encode_and_clean_inr df one_hot_cols text_cols drop_first df2 :
  encode_and_clean df one_hot_cols text_cols drop_first = inr df2 ->
  NoDup text_cols /\ Dict.wf df2 /\
  (forall c, In c one_hot_cols -> exists cells, Dict.get c df = Some cells) /\
  (forall c, In c text_cols ->
     exists cells, Dict.get c df = Some cells /\ ~ In c one_hot_cols /\
                   Dict.get c df2 = Some (Tokens (map tokenize cells))) /\
  (forall n col, In (n, col) df2 ->
     (exists cells, col = Utf8 cells /\ In (n, cells) df) \/
     (exists c cells l, In c one_hot_cols /\ Dict.get c df = Some cells /\
                        n = one_hot_name c l /\
                        col = Dummy (map (is_level l) cells)) \/
     (exists cells, In n text_cols /\ col = Tokens cells)).
Proof.
  unfold encode_and_clean.
  destruct (get_dummies df one_hot_cols drop_first) as [e|enc] eqn:Eg;
    [discriminate|].
  destruct (from_pandas enc) as [e|pl] eqn:Ef; [discriminate|].
  intros Hw.
  destruct (get_dummies_inr _ _ _ _ Eg) as (G1 & G2 & G3).
  destruct (from_pandas_inr _ _ Ef) as [-> Hwf].
  destruct (with_columns_inr _ _ _ Hw) as [Hnd Hr].
  destruct (replace_columns_inr _ _ _ Hr) as (R1 & R2 & R3).
  split; [assumption|]. split; [unfold Dict.wf; now rewrite R1|].
  split; [assumption|]. split.
  - intros c Hc.
    destruct (replace_columns_tokens _ _ _ Hnd Hr c Hc) as (cells & H1 & H2).
    exists cells. destruct (G3 _ _ H1). auto.
  - intros n col Hin. destruct (R2 _ _ Hin) as [H|(cells & H1 & H2 & H3)].
    + destruct (G2 _ _ H) as [(cells & H1 & H2 & _)|H']; [|auto].
      left. eauto.
    + right. right. eauto.
Qed.

Lemma replace_columns_inl text_cols : forall (df2 : table) e,
  replace_columns df2 text_cols = inl e ->
  e = ColumnNotFoundError \/ e = SchemaError.
Proof.
  induction text_cols as [|c cs IH]; simpl; intros df2 e H; [discriminate|].
  destruct (Dict.get c df2) as [[cells| | |]|];
    try (inversion H; subst; auto; fail).
  eauto.
Qed.


Lemma concat_inr frames (t : table) :
  concat frames = inr t -> t = List.concat frames /\ Dict.wf t.
Proof.
  unfold concat.
  destruct (nodupb (Dict.keys (List.concat frames))) eqn:E; [|discriminate].
  intros H. inversion H; subst. split; [reflexivity|].
  now apply nodupb_NoDup.
Qed.


(** A run that returns: its table is what is left of the cleaned frame once
    the text columns are dropped, followed by one frame of features per
    text column, in the order of [text_cols]. *)
Lemma run_Ok df one_hot_cols text_cols drop_first method mx mn out rm st :
  transform_text_data df one_hot_cols text_cols drop_first method mx mn
  = Ok (out, rm) st ->
  exists df2 news,
    encode_and_clean df one_hot_cols text_cols drop_first = inr df2 /\
    inv st /\ rm = _reverse_memo (memo st) /\ Dict.wf out /\
    out = filter (fun nc => negb (mem (fst nc) text_cols)) df2
          ++ List.concat news /\
    Forall2 (fun c t =>
               exists cells,
                 Dict.get c df2 = Some (Tokens cells) /\
                 Forall (known (memo st)) cells /\
                 feature_frame (make_vectorizer method mx mn)
                   (memo st) c cells t)
            text_cols news.
Proof.
  rewrite transform_unfold.
  destruct (encode_and_clean df one_hot_cols text_cols drop_first)
    as [e|df2] eqn:Ee; [discriminate|].
  destruct (encode_and_clean_inr _ _ _ _ _ Ee) as (Hnd & Hwf & _ & Htok & _).
  destruct (text_loop _ _ _ _) as [loc st1|e st1] eqn:El; [|discriminate].
  destruct (concat _) as [e|t] eqn:Ec; [discriminate|].
  intros H. inversion H; subst. clear H.
  apply text_loop_Ok in El; [|exact inv_initial|assumption|].
  - destruct El as (Hinv & _ & Hdf & news & Hnew & Hall).
    simpl in Hdf, Hnew, Hall.
    destruct (concat_inr _ _ Ec) as [Hout Hwf'].
    exists df2, news. split; [reflexivity|]. split; [assumption|].
    split; [reflexivity|]. split; [assumption|]. split; [|assumption].
    rewrite Hout. simpl. now rewrite Hdf, Hnew.
  - simpl. intros c Hc. destruct (Htok c Hc) as (cells & _ & _ & H).
    eauto.
Qed.

End RunFacts.

(* ===================================================================== *)
(** ** Properties of the stemming stage                                   *)
(* ===================================================================== *)


Lemma Forall2_In_r {A B} (P : A -> B -> Prop) l l' y :
  Forall2 P l l' -> In y l' -> exists x, In x l /\ P x y.
Proof.
  induction 1 as [|a b l l' Hab _ IH]; simpl; [contradiction|].
  intros [<-|Hin].
  - exists a. auto.
  - destruct (IH Hin) as [x [Hx Hp]]. exists x. auto.
Qed.

Lemma split_nonempty s : split s <> [].
Proof.
  destruct s as [|c s]; simpl; [discriminate|].
  destruct (Ascii.eqb c " "); [discriminate|].
  destruct (split s); discriminate.
Qed.

Section StemmingClaims.
Context {ext : Collaborators}.



(** C4. A missing cell gives a null token sequence, and the row of a null
    token sequence gives the document "Unknown" and leaves the whole state
    as it was: no call of the stemmer, no test, read or write of the memo
    is added to the trace.  In the documents of a column, the row of every
    missing cell holds "Unknown". *)
Theorem null_row_is_unknown (cells : list (option string)) (st : state) :
  inv st ->
  tokenize None = None /\
  normalize_row (tokenize None) st = Ok "Unknown" st /\
  exists docs st',
    normalize_column (map tokenize cells) [] st = Ok docs st' /\
    forall i, nth_error cells i = Some None ->
              nth_error docs i = Some "Unknown".
Proof.
  intros Hinv. split; [reflexivity|]. split; [reflexivity|].
  destruct (normalize_column_returns (map tokenize cells) [] st Hinv)
    as (docs & st1 & E & _ & _ & Hdocs & _).
  exists docs, st1. split; [assumption|].
  intros i Hi. subst docs. simpl.
  rewrite !nth_error_map, Hi. reflexivity.
Qed.


End StemmingClaims.


(** C4 on the text column of the example frame and its missing cell. *)
Lemma null_row_is_unknown_witness :
  inv (ext := Example.toy) initial_state /\
  normalize_row (ext := Example.toy) (tokenize None) initial_state
  = Ok "Unknown" initial_state.
Proof.
  split; [apply inv_initial|].
  apply (null_row_is_unknown (ext := Example.toy)
           [Some "Good products"; None; Some "good  Product!!"]
           initial_state).
  apply inv_initial.
Defined.



(** C2 on a memo in which two words share a stem. *)
Lemma reverse_memo_complete_witness :
  Dict.wf Example.example_memo /\
  total_len (_reverse_memo Example.example_memo) = 3.
Proof.
  assert (H : Dict.wf Example.example_memo)
    by (apply nodupb_NoDup; reflexivity).
  split; [exact H|].
  exact (proj1 (proj2 (proj2 (proj2
           (reverse_memo_complete Example.example_memo H))))).
Defined.

(* ===================================================================== *)
(** ** Column names                                                       *)
(* ===================================================================== *)

Section NamingClaims.
Context {ext : Collaborators}.

(** Two generated names can only be equal when the column names are equal
    or one of them continues the other with a colon. *)
Lemma name_clash c1 : forall l c2 x,
  one_hot_name c1 l = text_feature_name c2 x ->
  c1 = c2 \/ colon_extends c1 c2 = true \/ colon_extends c2 c1 = true.
Proof.
  unfold one_hot_name, text_feature_name, colon_extends.
  induction c1 as [|a c1 IH]; intros l c2 x H.
  - destruct c2 as [|b c2]; [now left|].
    right. left. simpl in *. inversion H; subst. reflexivity.
  - destruct c2 as [|b c2].
    + right. right. simpl in *. inversion H; subst. reflexivity.
    + simpl in H. inversion H; subst.
      destruct (IH _ _ _ H2) as [->|[Hc|Hc]].
      * now left.
      * right. left. simpl. now rewrite Ascii.eqb_refl.
      * right. right. simpl. now rewrite Ascii.eqb_refl.
Qed.

(** C6, amended. When no name of [one_hot_cols] is a name of [text_cols], or
    a name of [text_cols] followed by a suffix that starts with a colon, or
    the other way round, no indicator column that [get_dummies] generates
    bears a name of the form [<col>::word::<term>] for a text column. *)
Theorem names_do_not_collide df one_hot_cols text_cols drop_first
  (t : table) n cells c x :
  separable one_hot_cols text_cols = true ->
  get_dummies df one_hot_cols drop_first = inr t ->
  In (n, Dummy cells) t ->
  In c text_cols ->
  n <> text_feature_name c x.
Proof.
  intros Hsep Hg Hin Hc Heq.
  destruct (get_dummies_inr _ _ _ _ Hg) as (_ & G2 & _).
  destruct (G2 _ _ Hin)
    as [(cells' & Hu & _)|(c1 & cells1 & l & Hc1 & _ & Hn & _)];
    [discriminate|].
  unfold separable in Hsep. rewrite forallb_forall in Hsep.
  specialize (Hsep c1 Hc1). rewrite forallb_forall in Hsep.
  specialize (Hsep c Hc).
  apply andb_true_iff in Hsep. destruct Hsep as [Hsep H3].
  apply andb_true_iff in Hsep. destruct Hsep as [H1 H2].
  apply negb_true_iff in H1, H2, H3.
  rewrite Hn in Heq. apply name_clash in Heq.
  destruct Heq as [->|[Hx|Hx]]; [|congruence|congruence].
  now rewrite String.eqb_refl in H1.
Qed.

End NamingClaims.

(** C6: the lists ["a"] and ["a::b"] do not overlap, yet the indicator
    column of the category "b::word::good" of column "a" and the feature of
    the term "good" of column "a::b" bear the same name, and the run stops
    on the duplicate. *)
Lemma colliding_names :
  ~ In "a" ["a::b"] /\
  one_hot_name "a" "b::word::good" = text_feature_name "a::b" "good" /\
  (exists t cells,
     get_dummies (ext := Example.toy) Example.colliding ["a"] false = inr t /\
     In (text_feature_name "a::b" "good", Dummy cells) t) /\
  exists st,
    transform_text_data (ext := Example.toy) Example.colliding
      ["a"] ["a::b"] false "count" 1 0 = Raise DuplicateError st.
Proof.
  split; [|split; [|split]].
  - simpl. intros [H|[]]. discriminate.
  - reflexivity.
  - eexists _, _. split; [reflexivity|]. simpl. auto.
  - eexists. lazy. reflexivity.
Qed.

(** C6, amended, on the example frame. *)
Lemma names_do_not_collide_witness :
  separable ["category"] ["review"] = true /\
  "category::a" <> text_feature_name "review" "good".
Proof.
  split; [reflexivity|].
  eapply (names_do_not_collide (ext := Example.toy) Example.reviews
            ["category"] ["review"] false _ "category::a" _ "review" "good").
  - reflexivity.
  - reflexivity.
  - simpl. right. left. reflexivity.
  - simpl. auto.
Defined.

(* ===================================================================== *)
(** ** Rows                                                               *)
(* ===================================================================== *)

Section RowClaims.
Context {ext : Collaborators}.



End RowClaims.




(* ===================================================================== *)
(** ** The vectorizer                                                     *)
(* ===================================================================== *)

Section VectorizerClaims.
Context {ext : Collaborators}.






End VectorizerClaims.




(* ===================================================================== *)
(** ** Empty tokens                                                       *)
(* ===================================================================== *)





Section EmptyTokenClaims.
Context {ext : Collaborators}.


End EmptyTokenClaims.


(* ===================================================================== *)
(** ** Configuration errors                                               *)
(* ===================================================================== *)

Section ErrorClaims.
Context {ext : Collaborators}.

Lemma concat_inl frames e : concat frames = inl e -> e = DuplicateError.
Proof.
  unfold concat. destruct (nodupb _); [discriminate|].
  intros H. now inversion H.
Qed.


End ErrorClaims.



(* ===================================================================== *)
(** ** More on the tokenizer                                              *)
(* ===================================================================== *)

Lemma eqb_space c : Ascii.eqb c " " = true -> c = " "%char.
Proof. apply Ascii.eqb_eq. Qed.

Lemma concat_split s : String.concat " " (split s) = s.
Proof.
  induction s as [|c s IH]; [reflexivity|]. simpl.
  destruct (Ascii.eqb c " ") eqn:E.
  - apply eqb_space in E. subst c.
    destruct (split s) as [|tok toks] eqn:Es.
    + now apply split_nonempty in Es.
    + change (String.concat " " (EmptyString :: tok :: toks))
        with (String " " (String.concat " " (tok :: toks))).
      now rewrite IH.
  - destruct (split s) as [|tok toks] eqn:Es.
    + now apply split_nonempty in Es.
    + destruct toks as [|tok' toks].
      * simpl in *. now rewrite IH.
      * change (String.concat " " (String c tok :: tok' :: toks))
          with (String c (String.concat " " (tok :: tok' :: toks))).
        now rewrite IH.
Qed.

Lemma split_no_space s : Forall (fun tok => no_space tok = true) (split s).
Proof.
  induction s as [|c s IH]; simpl.
  - constructor; [reflexivity | constructor].
  - destruct (Ascii.eqb c " ") eqn:E.
    + constructor; [reflexivity | assumption].
    + destruct (split s) as [|tok toks].
      * constructor; [|constructor]. unfold no_space. simpl. now rewrite E.
      * inversion IH; subst. constructor; [|assumption].
        unfold no_space in *. simpl. now rewrite E.
Qed.

Lemma split_length s : List.length (split s) = S (count_spaces s).
Proof.
  induction s as [|c s IH]; simpl; [reflexivity|].
  destruct (Ascii.eqb c " ").
  - simpl. now rewrite IH.
  - destruct (split s) as [|tok toks] eqn:Es; simpl in *; [discriminate|].
    assumption.
Qed.

(** X1. Splitting on single spaces loses nothing: the tokens joined by
    single spaces, as line 85 joins the stems, give the text back; no token
    holds a space; and there is one token more than there are spaces. *)
Theorem split_join_round_trip s :
  String.concat " " (split s) = s /\
  Forall (fun tok => no_space tok = true) (split s) /\
  List.length (split s) = S (count_spaces s).
Proof.
  split; [apply concat_split|]. split; [apply split_no_space|].
  apply split_length.
Qed.






(* ===================================================================== *)
(** ** More on the memo reverser                                          *)
(* ===================================================================== *)

Lemma first_seen_ext l : forall seen seen',
  (forall x, mem x seen = mem x seen') ->
  first_seen seen l = first_seen seen' l.
Proof.
  induction l as [|x l IH]; intros seen seen' H; simpl; [reflexivity|].
  rewrite <- H. destruct (mem x seen); [now apply IH|].
  f_equal. apply IH. intros y. unfold mem. rewrite !existsb_app.
  fold (mem y seen). fold (mem y seen'). now rewrite H.
Qed.

Lemma reverse_loop_keys items : forall out,
  Dict.keys (reverse_loop items out) =
  Dict.keys out ++ first_seen (Dict.keys out) (Dict.values items).
Proof.
  unfold reverse_loop.
  induction items as [|[k s] items IH]; intros out; simpl.
  - now rewrite app_nil_r.
  - rewrite IH. unfold reverse_step.
    destruct (Dict.get s out) as [l|] eqn:E.
    + rewrite (keys_set_present _ _ _ _ E).
      assert (Hm : mem s (Dict.keys out) = true).
      { apply mem_In. eapply get_Some_keys; eauto. }
      now rewrite Hm.
    + assert (Hm : mem s (Dict.keys out) = false).
      { apply mem_false. now apply get_None_keys. }
      rewrite Hm, keys_set. unfold Dict.contains. rewrite E.
      now rewrite <- app_assoc.
Qed.

(** X3. The reverse memo keeps the order of the memo: its stems are keyed in
    the order in which they first occur among the values of the memo, and
    the list of a stem holds the words of that stem in the order in which
    the memo lists them. *)
Theorem reverse_memo_keeps_order (memo : Dict.t string) :
  Dict.keys (_reverse_memo memo) = first_occurrences (Dict.values memo) /\
  forall s l, Dict.get s (_reverse_memo memo) = Some l ->
              l = tokens_of_stem s memo.
Proof.
  split.
  - unfold _reverse_memo. now rewrite reverse_loop_keys.
  - intros s l H. rewrite reverse_memo_get in H.
    destruct (tokens_of_stem s memo); [discriminate|].
    now inversion H.
Qed.

(* ===================================================================== *)
(** ** What a run does to the memo                                        *)
(* ===================================================================== *)

Section MemoFacts.
Context {ext : Collaborators}.


Lemma keeps_lift {A} P (r : error + A) : keeps P (lift r).
Proof. intros st H. unfold lift. now destruct r. Qed.
















(** X6. In a run that returns, the lists of the reverse memo hold, all
    together, exactly as many words as the stemmer was called, which is
    the number of keys of the memo. *)
Theorem reverse_memo_counts_stemmer_calls df one_hot_cols text_cols
  drop_first method mx mn out rm st :
  transform_text_data df one_hot_cols text_cols drop_first method mx mn
  = Ok (out, rm) st ->
  total_len rm = List.length (stem_calls (trace st)) /\
  total_len rm = List.length (Dict.keys (memo st)).
Proof.
  intros Hrun.
  destruct (run_Ok _ _ _ _ _ _ _ _ _ _ Hrun)
    as (_ & _ & _ & (_ & Hcalls & _) & Hrm & _).
  rewrite Hcalls, Hrm. unfold _reverse_memo. rewrite reverse_loop_total.
  unfold Dict.keys. rewrite length_map. auto.
Qed.


End MemoFacts.




(** X6 on the example frame. *)
Lemma reverse_memo_counts_stemmer_calls_witness :
  exists out rm st,
    transform_text_data (ext := Example.toy) Example.reviews
      ["category"] ["review"] false "count" 1 0 = Ok (out, rm) st /\
    total_len rm = List.length (stem_calls (trace st)).
Proof.
  assert (Hrun : exists out rm st,
             transform_text_data (ext := Example.toy) Example.reviews
               ["category"] ["review"] false "count" 1 0 = Ok (out, rm) st).
  { eexists _, _, _. lazy. reflexivity. }
  destruct Hrun as (out & rm & st & Hrun).
  exists out, rm, st. split; [exact Hrun|].
  exact (proj1 (reverse_memo_counts_stemmer_calls (ext := Example.toy)
                  Example.reviews ["category"] ["review"] false
                  "count" 1 0 out rm st Hrun)).
Defined.


(* ===================================================================== *)
(** ** More on names, columns and errors                                  *)
(* ===================================================================== *)

Lemma append_injective (c a b : string) :
  (c ++ a)%string = (c ++ b)%string -> a = b.
Proof.
  induction c as [|x c IH]; simpl; [auto|].
  intros H. inversion H. auto.
Qed.

Section LayoutFacts.
Context {ext : Collaborators}.

Lemma feature_clash c1 : forall x c2 y,
  text_feature_name c1 x = text_feature_name c2 y ->
  c1 = c2 \/ colon_extends c1 c2 = true \/ colon_extends c2 c1 = true.
Proof.
  unfold text_feature_name, colon_extends.
  induction c1 as [|a c1 IH]; intros x c2 y H.
  - destruct c2 as [|b c2]; [now left|].
    right. left. simpl in *. inversion H; subst. reflexivity.
  - destruct c2 as [|b c2].
    + right. right. simpl in *. inversion H; subst. reflexivity.
    + simpl in H. inversion H; subst.
      destruct (IH _ _ _ H2) as [->|[Hc|Hc]].
      * now left.
      * right. left. simpl. now rewrite Ascii.eqb_refl.
      * right. right. simpl. now rewrite Ascii.eqb_refl.
Qed.

(** X8. The feature names of line 91 tell text columns and terms apart:
    when neither of two text column names is the other followed by a suffix
    that starts with a colon, two feature names are equal only if they
    come from the same column and the same term. *)
Theorem feature_names_are_distinct c1 x c2 y :
  colon_extends c1 c2 = false ->
  colon_extends c2 c1 = false ->
  text_feature_name c1 x = text_feature_name c2 y ->
  c1 = c2 /\ x = y.
Proof.
  intros H1 H2 H.
  destruct (feature_clash _ _ _ _ H) as [->|[Hc|Hc]]; try congruence.
  split; [reflexivity|].
  unfold text_feature_name in H. apply append_injective in H.
  now apply (append_injective "::word::") in H.
Qed.

Lemma In_set_other {V} (d : Dict.t V) k v n x :
  n <> k -> In (n, x) d -> In (n, x) (Dict.set k v d).
Proof.
  intros Hne. induction d as [|[k' v'] d IH]; simpl; [tauto|].
  destruct (String.eqb_spec k k'); simpl.
  - subst. intros [H|H]; [inversion H; subst; contradiction | now right].
  - intros [H|H]; [now left | right; auto].
Qed.

Lemma replace_columns_keeps text_cols : forall (df2 df3 : table) n x,
  replace_columns df2 text_cols = inr df3 ->
  ~ In n text_cols -> In (n, x) df2 -> In (n, x) df3.
Proof.
  induction text_cols as [|c cs IH]; simpl; intros df2 df3 n x H Hn Hin.
  - now inversion H; subst.
  - destruct (Dict.get c df2) as [[cells| | |]|]; try discriminate.
    eapply IH; [exact H | tauto |].
    apply In_set_other; [|assumption]. intros ->. apply Hn. now left.
Qed.

(** X9. A run that returns replaces the one-hot and text columns and leaves
    every other column alone: each input column named in neither list is in
    the returned table with its cells unchanged; the string columns of the
    returned table are exactly such input columns; and no column of token
    lists is left in it. *)
Theorem other_columns_pass_through df one_hot_cols text_cols drop_first
  method mx mn out rm st :
  transform_text_data df one_hot_cols text_cols drop_first method mx mn
  = Ok (out, rm) st ->
  (forall n cells,
     In (n, cells) df -> ~ In n one_hot_cols -> ~ In n text_cols ->
     In (n, Utf8 cells) out) /\
  (forall n cells,
     In (n, Utf8 cells) out ->
     In (n, cells) df /\ ~ In n one_hot_cols /\ ~ In n text_cols) /\
  (forall n cells, ~ In (n, Tokens cells) out).
Proof.
  intros Hrun.
  destruct (run_Ok _ _ _ _ _ _ _ _ _ _ Hrun)
    as (df2 & news & He & _ & _ & _ & Hout & Hall).
  assert (Hfeat : forall n col, In (n, col) (List.concat news) ->
                    is_feature col = true).
  { intros n col Hin. apply in_concat in Hin. destruct Hin as (t & Ht & Hin).
    destruct (Forall2_In_r _ _ _ _ Hall Ht)
      as (c & _ & cells' & _ & _ & (f & X & f' & _ & ->)).
    unfold from_numpy in Hin. apply in_combine_r in Hin.
    apply in_map_iff in Hin. now destruct Hin as (x & <- & _). }
  unfold encode_and_clean in He.
  destruct (get_dummies df one_hot_cols drop_first) as [e|enc] eqn:Eg;
    [discriminate|].
  destruct (from_pandas enc) as [e|pl] eqn:Ef; [discriminate|].
  destruct (get_dummies_inr _ _ _ _ Eg) as (_ & G2 & _).
  destruct (from_pandas_inr _ _ Ef) as [-> _].
  destruct (with_columns_inr _ _ _ He) as [_ Hr].
  destruct (replace_columns_inr _ _ _ Hr) as (_ & R2 & _).
  split; [|split].
  - intros n cells Hin Hoh Htc. rewrite Hout. apply in_or_app. left.
    apply filter_In. split.
    + eapply replace_columns_keeps; [exact Hr | assumption |].
      unfold get_dummies in Eg.
      destruct (encode df one_hot_cols drop_first); [|discriminate].
      inversion Eg; subst. apply in_or_app. left.
      apply in_map_iff. exists (n, cells). split; [reflexivity|].
      apply filter_In. split; [assumption|]. simpl.
      apply negb_true_iff. now apply mem_false.
    + simpl. apply negb_true_iff. now apply mem_false.
  - intros n cells Hin. rewrite Hout in Hin. apply in_app_or in Hin.
    destruct Hin as [Hin|Hin]; [|apply Hfeat in Hin; discriminate].
    apply filter_In in Hin. destruct Hin as [Hin Hm]. simpl in Hm.
    apply negb_true_iff, mem_false in Hm.
    destruct (R2 _ _ Hin) as [H|(cells' & _ & _ & H)]; [|discriminate].
    destruct (G2 _ _ H) as [(cells' & Hu & Hd & Hn)|(c & cs & l & _ & _ & _ & Hd)];
      [|discriminate].
    inversion Hu; subst. auto.
  - intros n cells Hin. rewrite Hout in Hin. apply in_app_or in Hin.
    destruct Hin as [Hin|Hin]; [|apply Hfeat in Hin; discriminate].
    apply filter_In in Hin. destruct Hin as [Hin Hm]. simpl in Hm.
    apply negb_true_iff, mem_false in Hm.
    destruct (R2 _ _ Hin) as [H|(cells' & Hn & _ & _)]; [|contradiction].
    destruct (G2 _ _ H) as [(cells' & Hu & _)|(c & cs & l & _ & _ & _ & Hd)];
      discriminate.
Qed.

(** X10. A run raises [KeyError] exactly when a name of [one_hot_cols] is
    not a column of the frame, and then nothing has been stemmed; in
    particular the read [memo[w]] of line 83 never fails. *)
Theorem key_error_means_unknown_one_hot_column df one_hot_cols text_cols
  drop_first method mx mn st :
  transform_text_data df one_hot_cols text_cols drop_first method mx mn
  = Raise KeyError st
  <->
  (exists c, In c one_hot_cols /\ Dict.get c df = None) /\
  st = initial_state.
Proof.
  rewrite transform_unfold. split.
  - destruct (encode_and_clean df one_hot_cols text_cols drop_first)
      as [e|df2] eqn:Ee.
    + intros H. inversion H; subst. split; [|reflexivity].
      unfold encode_and_clean in Ee.
      destruct (get_dummies df one_hot_cols drop_first) as [e|enc] eqn:Eg.
      * apply get_dummies_inl in Eg. tauto.
      * exfalso. unfold from_pandas in Ee.
        destruct (nodupb (Dict.keys enc)); [|discriminate].
        unfold with_columns in Ee.
        destruct (nodupb text_cols); [|discriminate].
        apply replace_columns_inl in Ee. destruct Ee; discriminate.
    + destruct (encode_and_clean_inr _ _ _ _ _ Ee) as (Hnd & _ & _ & Htok & _).
      destruct (text_loop _ _ _ _) as [loc st1|e st1] eqn:El.
      * destruct (concat _) eqn:Ec; [|discriminate].
        intros H. inversion H; subst. apply concat_inl in Ec. discriminate.
      * intros H. inversion H; subst.
        apply text_loop_Raise in El; [|exact inv_initial|assumption|].
        -- destruct El as [El _]. discriminate.
        -- simpl. intros c Hc. destruct (Htok c Hc) as (cells & _ & _ & Hg).
           eauto.
  - intros [Hc ->]. unfold encode_and_clean.
    assert (Hg : get_dummies df one_hot_cols drop_first = inl KeyError)
      by (apply get_dummies_inl; auto).
    now rewrite Hg.
Qed.



End LayoutFacts.

(** X8 on two features of the column "review". *)
Lemma feature_names_are_distinct_witness :
  colon_extends "review" "review" = false /\
  text_feature_name "review" "good" = text_feature_name "review" "good" /\
  "review" = "review" /\ "good" = "good".
Proof.
  split; [reflexivity|]. split; [reflexivity|].
  apply feature_names_are_distinct; reflexivity.
Defined.

(** X9 on the example frame when nothing is encoded: the column
    "category" passes through. *)
Lemma other_columns_pass_through_witness :
  exists out rm st,
    transform_text_data (ext := Example.toy) Example.reviews
      [] ["review"] false "count" 1 0 = Ok (out, rm) st /\
    In ("category", Utf8 [Some "a"; Some "b"; Some "a"]) out.
Proof.
  assert (Hrun : exists out rm st,
             transform_text_data (ext := Example.toy) Example.reviews
               [] ["review"] false "count" 1 0 = Ok (out, rm) st).
  { eexists _, _, _. lazy. reflexivity. }
  destruct Hrun as (out & rm & st & Hrun).
  exists out, rm, st. split; [exact Hrun|].
  apply (proj1 (other_columns_pass_through (ext := Example.toy)
                  Example.reviews [] ["review"] false "count" 1 0
                  out rm st Hrun)).
  - simpl. auto.
  - simpl. tauto.
  - simpl. intros [H|[]]. discriminate.
Defined.

(** X10 on a one-hot column the example frame does not have. *)
Lemma key_error_means_unknown_one_hot_column_witness :
  transform_text_data (ext := Example.toy) Example.reviews
    ["colour"] ["review"] false "count" 1 0
  = Raise KeyError initial_state.
Proof.
  apply (proj2 (key_error_means_unknown_one_hot_column (ext := Example.toy)
                  Example.reviews ["colour"] ["review"] false "count" 1 0
                  initial_state)).
  split; [|reflexivity]. exists "colour". split; [now left | reflexivity].
Defined.

